(** * ilqr_planner: time-augmented keypoints and the AL-iLQR outer loop

    A shallow embedding of
    - [src/system/SpacetimeKeypoint.cpp] (namespace [ilqr_planner::sys]), over
      the few Eigen vector operations it calls, with Eigen's range assertions
      written out, and
    - the outer loop of [solver::AL_ILQR::solve], of which the repository's
      header [include/ilqr_planner/solver/AL-ILQR.h] only carries the
      declaration.

    A C++ [double] is Rocq's primitive binary64 [float]; an [Eigen::Index] is
    a [Z]. *)

From Stdlib Require Import ZArith List Lia Bool Floats QArith Qminmax Lqa.
Import ListNotations.

Set Implicit Arguments.
Open Scope Z_scope.

(** ** Calls that may trip an assertion

    Eigen guards every block and coefficient access with [eigen_assert]; a
    computation that trips one has no value.  [None] stands for that. *)

Definition Checked (A : Type) : Type := option A.

Definition ret {A : Type} (a : A) : Checked A := Some a.

Definition bind {A B : Type} (c : Checked A) (k : A -> Checked B) : Checked B :=
  match c with
  | Some a => k a
  | None => None
  end.

Definition eigen_assert (b : bool) : Checked unit :=
  if b then Some tt else None.

Declare Scope checked_scope.
Delimit Scope checked_scope with checked.
Notation "x <- c ;; k" := (bind c (fun x => k))
  (at level 61, c at next level, right associativity) : checked_scope.
Notation "'check' b ;; k" := (bind (eigen_assert b) (fun _ => k))
  (at level 61, b at next level, right associativity) : checked_scope.
Open Scope checked_scope.

(** ** The part of Eigen the keypoint code uses *)

Module Eigen.

Definition double : Type := float.
Definition Index : Type := Z.

(** [Eigen::VectorXd]: a column of doubles whose length is only known at run
    time. *)
Definition VectorXd : Type := list double.

Definition rows (v : VectorXd) : Index := Z.of_nat (length v).

(** [VectorXd::Zero(n)]; the size must not be negative. *)
Definition Zero (n : Index) : Checked VectorXd :=
  check (0 <=? n) ;;
  ret (repeat 0%float (Z.to_nat n)).

(** [v.head(n)]: the first [n] coefficients; asserts [0 <= n <= v.rows()]. *)
Definition head (v : VectorXd) (n : Index) : Checked VectorXd :=
  check ((0 <=? n) && (n <=? rows v)) ;;
  ret (firstn (Z.to_nat n) v).

(** [v(i)]: asserts [0 <= i < v.size()]. *)
Definition coeff (v : VectorXd) (i : Index) : Checked double :=
  check ((0 <=? i) && (i <? rows v)) ;;
  nth_error v (Z.to_nat i).

(** Writing the block [blk] over the coefficients [start ..] of [v]. *)
Definition set_segment (v : VectorXd) (start : Index) (blk : VectorXd)
  : Checked VectorXd :=
  check ((0 <=? start) && (start + rows blk <=? rows v)) ;;
  ret (firstn (Z.to_nat start) v ++ blk
       ++ skipn (Z.to_nat (start + rows blk)) v).

(** Writing the scalar [s] at index [i] of [v]. *)
Definition set_coeff (v : VectorXd) (i : Index) (s : double)
  : Checked VectorXd :=
  check ((0 <=? i) && (i <? rows v)) ;;
  ret (firstn (Z.to_nat i) v ++ s :: skipn (Z.to_nat (i + 1)) v).

(** The comma initializer [target << blk, s;] on a column vector: [blk] is
    written from the top, [s] right below it, and when the statement ends
    Eigen asserts that every coefficient of [target] has been written. *)
Definition comma_init (target blk : VectorXd) (s : double) : Checked VectorXd :=
  v1 <- set_segment target 0 blk ;;
  v2 <- set_coeff v1 (rows blk) s ;;
  check (rows blk + 1 =? rows target) ;;
  ret v2.

End Eigen.

(** ** namespace [ilqr_planner::sys] *)

Module sys.
Import Eigen.

(** The base class [PosOrnKeypoint] lives in a header that is not among the
    sources.  [SpacetimeKeypoint] reaches it through two calls only, which
    are taken as they come: the pose's state vector and the pose residual. *)
Record PosOrnKeypoint : Type := {
  PosOrnKeypoint_getState : VectorXd;
  PosOrnKeypoint_diff : VectorXd -> VectorXd
}.

(** [class SpacetimeKeypoint : public PosOrnKeypoint], with its one data
    member [continuous_time_]. *)
Record SpacetimeKeypoint : Type := {
  base : PosOrnKeypoint;
  continuous_time_ : double
}.

(** [SpacetimeKeypoint::getState() const] *)
Definition getState (kp : SpacetimeKeypoint) : Checked VectorXd :=
  let state := PosOrnKeypoint_getState (base kp) in
  state_augmented <- Zero (rows state + 1) ;;
  comma_init state_augmented state (continuous_time_ kp).

(** [SpacetimeKeypoint::diff(const Eigen::VectorXd& state) const] *)
Definition diff (kp : SpacetimeKeypoint) (state : VectorXd) : Checked VectorXd :=
  pose <- head state (rows state - 1) ;;
  let residual := PosOrnKeypoint_diff (base kp) pose in
  residual_augmented <- Zero (rows residual + 1) ;;
  t <- coeff state (rows state - 1) ;;
  comma_init residual_augmented residual (continuous_time_ kp - t)%float.

End sys.

(** ** namespace [ilqr_planner::solver]

    The header declares [struct Constraint] and [class AL_ILQR] with its data
    members, and gives the signatures of the constructor, of [solve] and of
    the private helpers; no body is part of the sources.  What follows keeps
    the declared data and models the bodies from the specification of the
    solver, whose arithmetic is that of the real numbers: scalars are exact
    rationals here, not rounded doubles. *)

Module solver.
Local Open Scope Q_scope.

(** Modelled from the spec: the vectors and matrices of the solver, over
    exact rationals; a matrix is the list of its rows. *)
Definition Vector : Type := list Q.
Definition Matrix : Type := list Vector.

Fixpoint zipWith {A B C : Type} (f : A -> B -> C) (l : list A) (m : list B)
  : list C :=
  match l, m with
  | a :: l', b :: m' => f a b :: zipWith f l' m'
  | _, _ => []
  end.

Definition sum (v : Vector) : Q := fold_right Qplus 0 v.
Definition dot (v w : Vector) : Q := sum (zipWith Qmult v w).
Definition vadd (v w : Vector) : Vector := zipWith Qplus v w.
Definition vsub (v w : Vector) : Vector := zipWith Qminus v w.
Definition vscale (a : Q) (v : Vector) : Vector := map (Qmult a) v.
Definition matvec (M : Matrix) (v : Vector) : Vector :=
  map (fun row => dot row v) M.

Definition Qltb (x y : Q) : bool :=
  (Qnum x * QDen y <? Qnum y * QDen x)%Z.

(** [struct Constraint { Eigen::MatrixXd A; Eigen::VectorXd b; }]: the
    inequality family [A*[x;u] - b <= 0]. *)
Record Constraint : Type := {
  A : Matrix;
  b : Vector
}.

(** Modelled from the spec: [sys::System] is declared in a header that is not
    among the sources.  The solver reads from it the horizon, the initial
    state, the one-step dynamics and the per-timestep cost; the Jacobians,
    gradients and Hessians are read by the backward pass only. *)
Record System : Type := {
  horizon : nat;
  initial_state : Vector;
  dynamics : Vector -> Vector -> Vector;
  cost : Vector -> Vector -> nat -> Q
}.

(** The data members of [class AL_ILQR]. *)
Record AL_ILQR : Type := {
  s : System;
  inequality : list Constraint;
  multipliers : list Vector
}.

(** Modelled from the spec (3): a trajectory, the states [x_0 .. x_T] and
    the controls [u_0 .. u_(T-1)]. *)
Record Trajectory : Type := {
  states : list Vector;
  controls : list Vector
}.

(** Modelled from the spec (3, 4.3): the feedforward and feedback gains of
    one timestep; the control correction is [k_ff + K_fb*dx]. *)
Record Gain : Type := {
  k_ff : Vector;
  K_fb : Matrix
}.

(** Modelled from the spec: what the specification leaves to the implementer.
    The backward pass is described as a Riccati-like recursion with bounded
    regularization retries and no formulas; it is taken as a function that
    yields one gain per timestep, or nothing when regularization is
    exhausted.  Backtracking halves the step size, and the minimum step size
    is [2^-backtracks]; [stop_threshold] is the small threshold of the
    early-stop test. *)
Record Policy : Type := {
  backward_pass :
    AL_ILQR -> list Vector -> Q -> Trajectory -> option (list Gain);
  backtracks : nat;
  stop_threshold : Q
}.

(** Modelled from the spec (3): gains are per timestep, so the backward pass
    hands back one gain per control of the trajectory. *)
Definition gains_per_timestep (pol : Policy) : Prop :=
  forall solver lam mu traj gains,
    backward_pass pol solver lam mu traj = Some gains ->
    length gains = length (controls traj).

Section Solver.
Variable pol : Policy.
Variable self : AL_ILQR.

(** Modelled from the spec (4.1): [AL_ILQR::constraints] returns the matrix
    and the bound given at construction for timestep [k]; a timestep past the
    end of the list carries no constraint row. *)
Definition constraints (xk uk : Vector) (k : nat) : Matrix * Vector :=
  match nth_error (inequality self) k with
  | Some c => (A c, b c)
  | None => ([], [])
  end.

(** Modelled from the spec (4.2): the constraint value
    [C_k = A_k*[x_k;u_k] - b_k]. *)
Definition constraint_value (xk uk : Vector) (k : nat) : Vector :=
  let (Ak, bk) := constraints xk uk k in
  vsub (matvec Ak (xk ++ uk)) bk.

(** Modelled from the spec (9): the active-set mask, a diagonal 0/1 matrix
    with a one on the rows whose constraint is violated or whose multiplier
    is positive. *)
Definition active (lambdak Ck : Vector) : list bool :=
  zipWith (fun l c => Qltb 0 c || Qltb 0 l) lambdak Ck.

Fixpoint diagonal (d : list bool) : Matrix :=
  match d with
  | [] => []
  | a :: d' =>
      ((if a then 1 else 0) :: repeat 0 (length d'))
        :: map (cons 0) (diagonal d')
  end.

(** Modelled from the spec (4.2): the augmented loss of timestep [k],
    [L_k = cost(x_k,u_k,k) + lambda_k^T*I_k*C_k + (penalty/2)*C_k^T*I_k*C_k],
    a scalar that depends on the penalty.  This is the quantity of the spec,
    not the member [AL_ILQR::augmentedLossK]: that one is declared with the
    six arguments [xk, uk, k, lambdak, Ck, Ik], no penalty, and an
    [Eigen::VectorXd] result, has no body among the sources, and is not
    embedded. *)
Definition augmented_loss (penalty : Q) (xk uk : Vector) (k : nat)
    (lambdak Ck : Vector) (Ik : Matrix) : Q :=
  cost (s self) xk uk k
  + dot lambdak (matvec Ik Ck)
  + (penalty / 2) * dot Ck (matvec Ik Ck).

Fixpoint losses (penalty : Q) (k : nat) (xs us lam : list Vector) : list Q :=
  match xs, us with
  | xk :: xs', uk :: us' =>
      let lambdak := hd [] lam in
      let Ck := constraint_value xk uk k in
      augmented_loss penalty xk uk k lambdak Ck (diagonal (active lambdak Ck))
        :: losses penalty (S k) xs' us' (tl lam)
  | _, _ => []
  end.

(** Modelled from the spec (4.4): the total augmented cost over the horizon,
    the sum of the augmented losses of the timesteps. *)
Definition total_cost (lam : list Vector) (penalty : Q) (traj : Trajectory) : Q :=
  sum (losses penalty 0 (states traj) (controls traj) lam).

(** Modelled from the spec (4.6): the system's own cost over the horizon,
    constraints left out. *)
Fixpoint native_costs (k : nat) (xs us : list Vector) : list Q :=
  match xs, us with
  | xk :: xs', uk :: us' => cost (s self) xk uk k :: native_costs (S k) xs' us'
  | _, _ => []
  end.

Definition native_cost (traj : Trajectory) : Q :=
  sum (native_costs 0 (states traj) (controls traj)).

(** Modelled from the spec (4.5, Terminal): the per-timestep constraint
    values along a trajectory. *)
Fixpoint violations_from (k : nat) (xs us : list Vector) : list Vector :=
  match xs, us with
  | xk :: xs', uk :: us' =>
      constraint_value xk uk k :: violations_from (S k) xs' us'
  | _, _ => []
  end.

Definition violations (traj : Trajectory) : list Vector :=
  violations_from 0 (states traj) (controls traj).

(** Modelled from the spec (4.4): the forward pass.  From the state [x_new]
    at timestep [k] on, with [olds] the old states, old controls and gains of
    the timesteps left:
    [u_k_new = u_k_old + alpha*k_k + K_k*(x_k_new - x_k_old)]. *)
Fixpoint forward_from (alpha : Q) (x_new : Vector)
    (olds : list (Vector * Vector * Gain)) : list Vector * list Vector :=
  match olds with
  | [] => ([x_new], [])
  | (x_old, u_old, g) :: rest =>
      let u_new :=
        vadd (vadd u_old (vscale alpha (k_ff g)))
             (matvec (K_fb g) (vsub x_new x_old)) in
      let (xs, us) := forward_from alpha (dynamics (s self) x_new u_new) rest in
      (x_new :: xs, u_new :: us)
  end.

Definition forward_pass (alpha : Q) (old : Trajectory) (gains : list Gain)
  : Trajectory :=
  let (xs, us) :=
    forward_from alpha (initial_state (s self))
      (combine (combine (states old) (controls old)) gains) in
  {| states := xs; controls := us |}.

(** Modelled from the spec (6): the trajectory of the initial controls [U0],
    propagated from the initial state with no correction. *)
Fixpoint rollout (x : Vector) (U : list Vector) : list Vector :=
  match U with
  | [] => [x]
  | u :: U' => x :: rollout (dynamics (s self) x u) U'
  end.

Definition initial_trajectory (U0 : list Vector) : Trajectory :=
  {| states := rollout (initial_state (s self)) U0; controls := U0 |}.

(** Modelled from the spec (4.4): the step sizes backtracking goes through,
    [alpha], [alpha/2], ... down to [alpha/2^n]. *)
Fixpoint step_sizes (n : nat) (alpha : Q) : list Q :=
  alpha :: match n with
           | O => []
           | S n' => step_sizes n' (alpha / 2)
           end.

(** Modelled from the spec (4.4): backtracking line search.  The candidate
    of step size [alpha] is accepted when its total augmented cost is
    strictly below that of the previous accepted trajectory; otherwise the
    step size is halved, and once no halving is left the previous trajectory
    is kept. *)
Fixpoint line_search_from (n : nat) (alpha : Q) (J : Trajectory -> Q)
    (prev : Trajectory) (gains : list Gain) : Trajectory :=
  let candidate := forward_pass alpha prev gains in
  if Qltb (J candidate) (J prev) then candidate
  else
    match n with
    | O => prev
    | S n' => line_search_from n' (alpha / 2) J prev gains
    end.

(** Modelled from the spec (4.5, state Optimize; 7, ill-conditioned
    subproblem): backward pass, then forward pass; when the backward pass
    gives up the previous trajectory is retained. *)
Definition optimize (line_search : bool) (lam : list Vector) (penalty : Q)
    (prev : Trajectory) : Trajectory :=
  match backward_pass pol self lam penalty prev with
  | None => prev
  | Some gains =>
      if line_search
      then line_search_from (backtracks pol) 1 (total_cost lam penalty) prev gains
      else forward_pass 1 prev gains
  end.

(** Modelled from the spec (4.5): [lambda_k <- max(0, lambda_k + penalty*C_k)],
    row by row; a multiplier with no timestep left is not touched. *)
Fixpoint update_multipliers (penalty : Q) (lam viol : list Vector)
  : list Vector :=
  match lam, viol with
  | lambdak :: lam', Ck :: viol' =>
      zipWith (fun l c => Qmax 0 (l + penalty * c)) lambdak Ck
        :: update_multipliers penalty lam' viol'
  | _, _ => lam
  end.

(** Modelled from the spec (3, 4.5): what one outer iteration hands to the
    next, the accepted trajectory, the multipliers, the penalty, and whether
    the early-stop test fired. *)
Record LoopState : Type := {
  traj : Trajectory;
  lambda : list Vector;
  mu : Q;
  stopped : bool
}.

(** The arguments of [solve] as the header declares them, the callback
    apart: reporting is fire-and-forget and changes nothing the loop
    computes. *)
Record SolveArgs : Type := {
  U0 : list Vector;
  nb_iter : Z;
  lag_update_step : Z;
  penalty0 : Q;
  scaling_factor : Q;
  line_search : bool;
  early_stop : bool
}.

Variable args : SolveArgs.

(** Modelled from the spec (4.5): outer iteration [i].  Optimize, always; on
    every multiple of [lag_update_step] update the multipliers from the
    constraint values of the new trajectory, with the penalty as it is, and
    then scale the penalty; with [early_stop], stop when the cost improvement
    is below the threshold.  An iteration whose backward pass gave up keeps
    its trajectory and goes through the same transitions. *)
Definition outer_iteration (i : Z) (st : LoopState) : LoopState :=
  let next := optimize (line_search args) (lambda st) (mu st) (traj st) in
  let improvement :=
    total_cost (lambda st) (mu st) (traj st)
    - total_cost (lambda st) (mu st) next in
  let update := (i mod lag_update_step args =? 0)%Z in
  {| traj := next;
     lambda :=
       if update
       then update_multipliers (mu st) (lambda st) (violations next)
       else lambda st;
     mu := if update then mu st * scaling_factor args else mu st;
     stopped := early_stop args && Qltb improvement (stop_threshold pol) |}.

(** Modelled from the spec (4.5): the loop over the outer iterations
    [i0 .. i0 + n - 1], left early once the early-stop test fires. *)
Fixpoint outer_loop (n : nat) (i : Z) (st : LoopState) : LoopState :=
  match n with
  | O => st
  | S n' =>
      let st' := outer_iteration i st in
      if stopped st' then st' else outer_loop n' (i + 1)%Z st'
  end.

(** Modelled from the spec (4.5): the states the loop goes through, one per
    outer iteration that ran. *)
Fixpoint outer_loop_trace (n : nat) (i : Z) (st : LoopState)
  : list LoopState :=
  match n with
  | O => []
  | S n' =>
      let st' := outer_iteration i st in
      st' :: (if stopped st' then [] else outer_loop_trace n' (i + 1)%Z st')
  end.

(** Modelled from the spec (6, 7): the configurations [solve] accepts. *)
Definition valid_configuration : bool :=
  (0 <? nb_iter args)%Z
  && (0 <? lag_update_step args)%Z
  && Qltb 0 (penalty0 args)
  && (length (U0 args) =? horizon (s self))%nat
  && (length (multipliers self) =? length (inequality self))%nat
  && forallb (fun p => (length (fst p) =? length (A (snd p)))%nat
                       && (length (fst p) =? length (b (snd p)))%nat)
       (combine (multipliers self) (inequality self)).

(** Modelled from the spec (7): the invalid configurations as the error
    taxonomy lists them: a non-positive [nb_iter], [lag_update_step] or
    [penalty], a horizon mismatch between [U0] and the system, or mismatched
    multiplier and constraint lengths, in number or in the rows of one
    entry. *)
Definition invalid_configuration : Prop :=
  (nb_iter args <= 0)%Z
  \/ (lag_update_step args <= 0)%Z
  \/ penalty0 args <= 0
  \/ length (U0 args) <> horizon (s self)
  \/ length (multipliers self) <> length (inequality self)
  \/ exists k lambdak c,
       nth_error (multipliers self) k = Some lambdak
       /\ nth_error (inequality self) k = Some c
       /\ (length lambdak <> length (A c) \/ length lambdak <> length (b c)).

(** Modelled from the spec (3, 6): the loop starts from the trajectory of
    [U0], the multipliers the solver was built with and the penalty the
    caller gave. *)
Definition initial_loop_state : LoopState :=
  {| traj := initial_trajectory (U0 args);
     lambda := multipliers self;
     mu := penalty0 args;
     stopped := false |}.

(** Modelled from the spec (4.5): the loop states of a call, the state the
    loop starts from and then the state after each outer iteration that ran;
    none for a rejected call. *)
Definition solve_trace : list LoopState :=
  if valid_configuration
  then initial_loop_state
         :: outer_loop_trace (Z.to_nat (nb_iter args)) 0 initial_loop_state
  else [].

(** Modelled from the spec (4.5, 6, 7): [AL_ILQR::solve].  A call with an
    invalid configuration yields no trajectory; an accepted one runs the
    outer loop and returns the states, the controls and the constraint
    values of the trajectory the loop ends with.  The multipliers are a data
    member: the solver object is returned with the ones the loop ends with. *)
Definition solve
  : option (list Vector * list Vector * list Vector) * AL_ILQR :=
  if valid_configuration
  then
    let final :=
      outer_loop (Z.to_nat (nb_iter args)) 0 initial_loop_state in
    (Some (states (traj final), controls (traj final), violations (traj final)),
     {| s := s self; inequality := inequality self;
        multipliers := lambda final |})
  else (None, self).

(** Modelled from the spec (3): a trajectory over the whole horizon has
    [T + 1] states and [T] controls. *)
Definition over_horizon (t : Trajectory) : Prop :=
  length (states t) = S (horizon (s self))
  /\ length (controls t) = horizon (s self).


(** Modelled from the spec (4.4): the step sizes an outer iteration tries, in
    the order it tries them: the backtracking sequence with line search,
    [alpha = 1] alone without. *)
Definition tried_step_sizes : list Q :=
  if line_search args then step_sizes (backtracks pol) 1 else [1].

(** Modelled from the spec (4.4): the acceptance test of a forward pass.
    With line search the candidate passes when its total augmented cost,
    under the multipliers and penalty of the iteration, is strictly below
    that of the previous accepted trajectory; without line search it always
    passes. *)
Definition passes (lam : list Vector) (penalty : Q) (prev cand : Trajectory)
  : bool :=
  if line_search args
  then Qltb (total_cost lam penalty cand) (total_cost lam penalty prev)
  else true.

(** Modelled from the spec (4.4, 7): what one outer iteration may do to the
    accepted trajectory.  When the backward pass gives up, it keeps it.
    Otherwise either every step size tried gives a forward pass that fails
    the acceptance test, and it keeps it; or it replaces it by the forward
    pass of the first step size tried that passes the test. *)
Definition keeps_or_accepts (st st' : LoopState) : Prop :=
  match backward_pass pol self (lambda st) (mu st) (traj st) with
  | None => traj st' = traj st
  | Some gains =>
      (traj st' = traj st
       /\ forall a, In a tried_step_sizes ->
            passes (lambda st) (mu st) (traj st)
              (forward_pass a (traj st) gains) = false)
      \/ exists before a after,
           tried_step_sizes = before ++ a :: after
           /\ (forall a', In a' before ->
                passes (lambda st) (mu st) (traj st)
                  (forward_pass a' (traj st) gains) = false)
           /\ passes (lambda st) (mu st) (traj st)
                (forward_pass a (traj st) gains) = true
           /\ traj st' = forward_pass a (traj st) gains
  end.

End Solver.

(** "The cost never goes up from one outer iteration to the next", for a way
    [measure] of costing a loop state. *)
Definition cost_never_rises (measure : LoopState -> Q)
    (states_of_call : list LoopState) : Prop :=
  forall i st st',
    nth_error states_of_call i = Some st ->
    nth_error states_of_call (S i) = Some st' ->
    measure st' <= measure st.

End solver.

(** ** Data to run the definitions on *)

Module Examples.
Import Eigen.

(** A position-only pose keypoint: its state is the target position and its
    residual the coefficient-wise difference to it. *)
Definition position_keypoint (target : VectorXd) : sys.PosOrnKeypoint :=
  {| sys.PosOrnKeypoint_getState := target;
     sys.PosOrnKeypoint_diff :=
       fun x => map (fun p => (fst p - snd p)%float) (combine target x) |}.

Definition reach_in_2s : sys.SpacetimeKeypoint :=
  {| sys.base := position_keypoint [1.5; -0.5; 0.25]%float;
     sys.continuous_time_ := 2%float |}.

Import solver.
Local Open Scope Q_scope.

(** One timestep of a point on a line, [x' = x + u] from [x = 0], with cost
    [u^2] and the one constraint [1 - u <= 0]: the cheapest control, [u = 0],
    is infeasible. *)
Definition push_system : System :=
  {| horizon := 1;
     initial_state := [0];
     dynamics := fun x u => vadd x u;
     cost := fun x u k => dot u u |}.

Definition push_constraint : Constraint := {| A := [[0; -1]]; b := [-1] |}.

Definition push_solver : AL_ILQR :=
  {| s := push_system;
     inequality := [push_constraint];
     multipliers := [[0]] |}.

(** The backward pass of that problem in closed form: the augmented loss is
    quadratic in the single control, so the feedforward gain is the Newton
    step [-L'(u) / L''(u)], and the feedback gain is zero. *)
Definition newton_gain (lam : list Vector) (penalty : Q) (u : Vector) : Gain :=
  match u, hd [] lam with
  | [u0], [l0] =>
      let C := 1 - u0 in
      let a := if Qltb 0 C || Qltb 0 l0 then 1 else 0 in
      {| k_ff := [Qred (- (2 * u0 - a * (l0 + penalty * C)) / (2 + a * penalty))];
         K_fb := [[0]] |}
  | _, _ => {| k_ff := []; K_fb := [] |}
  end.

Definition newton_policy : Policy :=
  {| backward_pass :=
       fun _ lam penalty traj =>
         Some (map (newton_gain lam penalty) (controls traj));
     backtracks := 4;
     stop_threshold := 1 # 1000 |}.

Definition push_args : SolveArgs :=
  {| U0 := [[0]];
     nb_iter := 3;
     lag_update_step := 1;
     penalty0 := 1;
     scaling_factor := 10;
     line_search := true;
     early_stop := false |}.

(** The same call with the multipliers updated on every other iteration. *)
Definition push_args_lag2 : SolveArgs :=
  {| U0 := [[0]];
     nb_iter := 4;
     lag_update_step := 2;
     penalty0 := 1;
     scaling_factor := 10;
     line_search := true;
     early_stop := false |}.

End Examples.

(** ** Facts about the Eigen operations *)

Module EigenFacts.
Import Eigen.

Lemma eigen_assert_true (b : bool) : b = true -> eigen_assert b = Some tt.
Proof. intros ->. reflexivity. Qed.

Lemma eigen_assert_false (b : bool) : b = false -> eigen_assert b = None.
Proof. intros ->. reflexivity. Qed.

Lemma rows_nonneg (v : VectorXd) : 0 <= rows v.
Proof. unfold rows. lia. Qed.

Lemma rows_app (v w : VectorXd) : rows (v ++ w) = rows v + rows w.
Proof. unfold rows. rewrite length_app. lia. Qed.

Lemma Zero_ok (n : Index) :
  0 <= n -> exists z, Zero n = Some z /\ rows z = n.
Proof.
  intro Hn. unfold Zero.
  rewrite (eigen_assert_true (b := 0 <=? n)) by (apply Z.leb_le; exact Hn).
  simpl. eexists. split; [reflexivity|].
  unfold rows. rewrite repeat_length. lia.
Qed.

Lemma head_in_range (v : VectorXd) (n : Index) :
  0 <= n <= rows v -> head v n = Some (firstn (Z.to_nat n) v).
Proof.
  intros [H0 H1]. unfold head.
  rewrite eigen_assert_true; [reflexivity|].
  apply andb_true_intro. split; apply Z.leb_le; assumption.
Qed.

Lemma head_out_of_range (v : VectorXd) (n : Index) :
  n < 0 \/ rows v < n -> head v n = None.
Proof.
  intros H. unfold head.
  rewrite eigen_assert_false; [reflexivity|].
  apply andb_false_iff. destruct H; [left|right]; apply Z.leb_gt; assumption.
Qed.

Lemma coeff_in_range (v : VectorXd) (i : Index) :
  0 <= i < rows v -> coeff v i = nth_error v (Z.to_nat i).
Proof.
  intros [H0 H1]. unfold coeff.
  rewrite eigen_assert_true; [reflexivity|].
  apply andb_true_intro. split; [apply Z.leb_le|apply Z.ltb_lt]; assumption.
Qed.

Lemma coeff_out_of_range (v : VectorXd) (i : Index) :
  i < 0 \/ rows v <= i -> coeff v i = None.
Proof.
  intros H. unfold coeff.
  rewrite eigen_assert_false; [reflexivity|].
  apply andb_false_iff.
  destruct H; [left; apply Z.leb_gt|right; apply Z.ltb_ge]; assumption.
Qed.

(** The head of length [rows - 1] and the coefficient [rows - 1] of a vector
    that ends in [t]. *)
Lemma head_snoc (v : VectorXd) (t : double) :
  head (v ++ [t]) (rows (v ++ [t]) - 1) = Some v.
Proof.
  rewrite head_in_range.
  - f_equal. rewrite rows_app. change (rows [t]) with 1. unfold rows.
    replace (Z.to_nat (Z.of_nat (length v) + 1 - 1)) with (length v + 0)%nat by lia.
    rewrite firstn_app_2. simpl. apply app_nil_r.
  - rewrite rows_app. pose proof (rows_nonneg v). change (rows [t]) with 1. lia.
Qed.

Lemma coeff_snoc (v : VectorXd) (t : double) :
  coeff (v ++ [t]) (rows (v ++ [t]) - 1) = Some t.
Proof.
  rewrite coeff_in_range.
  - rewrite rows_app. change (rows [t]) with 1. unfold rows.
    replace (Z.to_nat (Z.of_nat (length v) + 1 - 1)) with (length v) by lia.
    rewrite nth_error_app2 by lia. rewrite Nat.sub_diag. reflexivity.
  - rewrite rows_app. pose proof (rows_nonneg v). change (rows [t]) with 1. lia.
Qed.

(** A comma initializer that is handed exactly as many coefficients as the
    target has overwrites all of it. *)
Lemma comma_init_fills (target blk : VectorXd) (s : double) :
  rows target = rows blk + 1 -> comma_init target blk s = Some (blk ++ [s]).
Proof.
  intro Hrows. pose proof (rows_nonneg blk) as Hblk.
  unfold comma_init, set_segment.
  rewrite eigen_assert_true
    by (apply andb_true_intro; split; apply Z.leb_le; lia).
  cbn [bind ret firstn Z.to_nat app].
  set (rest := skipn (Z.to_nat (0 + rows blk)) target).
  assert (Hrest : length rest = 1%nat).
  { unfold rest. rewrite length_skipn. unfold rows in *. lia. }
  assert (Hv1 : rows (blk ++ rest) = rows blk + 1).
  { rewrite rows_app. unfold rows at 2. lia. }
  unfold set_coeff.
  rewrite eigen_assert_true
    by (apply andb_true_intro; split; [apply Z.leb_le|apply Z.ltb_lt]; lia).
  cbn [bind ret].
  rewrite eigen_assert_true by (apply Z.eqb_eq; lia).
  cbn [bind]. unfold ret. f_equal.
  replace (Z.to_nat (rows blk)) with (length blk + 0)%nat
    by (unfold rows; lia).
  replace (Z.to_nat (rows blk + 1)) with (length blk + 1)%nat
    by (unfold rows; lia).
  rewrite firstn_app_2, skipn_app.
  rewrite skipn_all2 by lia.
  replace (length blk + 1 - length blk)%nat with 1%nat by lia.
  rewrite (skipn_all2 (n := 1) rest) by lia.
  simpl. rewrite app_nil_r. reflexivity.
Qed.

Lemma comma_init_size_mismatch (target blk : VectorXd) (s : double) :
  rows target <> rows blk + 1 -> comma_init target blk s = None.
Proof.
  intro Hne. unfold comma_init.
  destruct (set_segment target 0 blk) as [v1|]; [|reflexivity].
  cbn [bind]. destruct (set_coeff v1 (rows blk) s) as [v2|]; [|reflexivity].
  cbn [bind]. rewrite eigen_assert_false by (apply Z.eqb_neq; lia).
  reflexivity.
Qed.

End EigenFacts.

(** ** The time-augmented keypoint *)

Module SpacetimeKeypointFacts.
Import Eigen EigenFacts sys Examples.

Example getState_reach_in_2s :
  getState reach_in_2s = Some [1.5; -0.5; 0.25; 2]%float.
Proof. reflexivity. Qed.

Example diff_reach_in_2s :
  diff reach_in_2s [1; 1; 0.25; 0.5]%float = Some [0.5; -1.5; 0; 1.5]%float.
Proof. reflexivity. Qed.

Example diff_reach_in_2s_empty : diff reach_in_2s [] = None.
Proof. reflexivity. Qed.

(** Once the two accesses of [diff] are in range, the rest of the function
    cannot fail: the residual is the pose residual followed by the time
    difference. *)
Lemma diff_of_accesses (kp : SpacetimeKeypoint) (state pose : VectorXd)
    (t : double) :
  head state (rows state - 1) = Some pose ->
  coeff state (rows state - 1) = Some t ->
  diff kp state
  = Some (PosOrnKeypoint_diff (base kp) pose ++ [(continuous_time_ kp - t)%float]).
Proof.
  intros Hhead Hcoeff. unfold diff.
  rewrite Hhead. cbn [bind].
  set (residual := PosOrnKeypoint_diff (base kp) pose).
  destruct (Zero_ok (n := rows residual + 1)) as [z [Hz Hrows]].
  { pose proof (rows_nonneg residual). lia. }
  rewrite Hz, Hcoeff. cbn [bind].
  apply comma_init_fills. exact Hrows.
Qed.

Lemma diff_of_empty (kp : SpacetimeKeypoint) : diff kp [] = None.
Proof.
  unfold diff. rewrite head_out_of_range; [reflexivity|].
  left. unfold rows. simpl. lia.
Qed.

(** Two vectors of one length whose coefficients agree below [n] have the
    same first [n] coefficients. *)
Lemma firstn_pointwise (n : nat) :
  forall v w : VectorXd,
    length v = length w ->
    (forall i, (i < n)%nat -> nth_error v i = nth_error w i) ->
    firstn n v = firstn n w.
Proof.
  induction n as [|n IH]; intros v w Hlen Hnth; [reflexivity|].
  destruct v as [|x v], w as [|y w]; try discriminate; [reflexivity|].
  simpl. f_equal.
  - specialize (Hnth 0%nat). simpl in Hnth.
    assert (Hx : Some x = Some y) by (apply Hnth; lia).
    injection Hx. trivial.
  - apply IH.
    + simpl in Hlen. lia.
    + intros i Hi. apply (Hnth (S i)). lia.
Qed.

Lemma nonempty_snoc (v : VectorXd) :
  0 < rows v -> v = removelast v ++ [last v 0%float].
Proof.
  intro Hpos. apply app_removelast_last.
  intro E. rewrite E in Hpos. unfold rows in Hpos. simpl in Hpos. lia.
Qed.

(** C1.  For a target with continuous time [continuous_time_ kp] and a state
    made of a pose followed by the time [t], [SpacetimeKeypoint::diff]
    returns the pose residual of the base keypoint, computed on the state
    without its last coefficient, followed by exactly one more entry, the
    double [continuous_time_ kp - t]. *)
Theorem diff_is_pose_residual_then_time_difference
    (kp : SpacetimeKeypoint) (pose : VectorXd) (t : double) :
  diff kp (pose ++ [t])
  = Some (PosOrnKeypoint_diff (base kp) pose
          ++ [(continuous_time_ kp - t)%float]).
Proof.
  apply diff_of_accesses.
  - apply head_snoc.
  - apply coeff_snoc.
Qed.

(** C2.  [SpacetimeKeypoint::getState] returns the state vector of the base
    pose keypoint with exactly one more coefficient at the end, the target's
    continuous time. *)
Theorem getState_is_pose_state_then_time (kp : SpacetimeKeypoint) :
  getState kp
  = Some (PosOrnKeypoint_getState (base kp) ++ [continuous_time_ kp])
  /\ (forall v, getState kp = Some v ->
        rows v = rows (PosOrnKeypoint_getState (base kp)) + 1).
Proof.
  assert (E : getState kp
              = Some (PosOrnKeypoint_getState (base kp) ++ [continuous_time_ kp])).
  { unfold getState.
    set (state := PosOrnKeypoint_getState (base kp)).
    destruct (Zero_ok (n := rows state + 1)) as [z [Hz Hrows]].
    { pose proof (rows_nonneg state). lia. }
    rewrite Hz. cbn [bind]. apply comma_init_fills. exact Hrows. }
  split; [exact E|].
  intros v Hv. rewrite E in Hv. injection Hv as <-.
  rewrite rows_app. reflexivity.
Qed.

(** C9.  Two states of the same length, with at least one coefficient, that
    agree on every coefficient but the last have residuals with the same
    pose part: the outputs of [SpacetimeKeypoint::diff] differ at most in
    their last entry. *)
Theorem diff_time_reaches_last_entry_only
    (kp : SpacetimeKeypoint) (s1 s2 : VectorXd) :
  0 < rows s1 ->
  rows s1 = rows s2 ->
  (forall i, 0 <= i < rows s1 - 1 -> coeff s1 i = coeff s2 i) ->
  exists r e1 e2,
    diff kp s1 = Some (r ++ [e1]) /\ diff kp s2 = Some (r ++ [e2]).
Proof.
  intros Hpos Hrows Hagree.
  assert (Hpos2 : 0 < rows s2) by lia.
  pose proof (@nonempty_snoc s1 Hpos) as E1.
  pose proof (@nonempty_snoc s2 Hpos2) as E2.
  set (p1 := removelast s1) in *. set (t1 := last s1 0%float) in *.
  set (p2 := removelast s2) in *. set (t2 := last s2 0%float) in *.
  assert (Hlen : length s1 = length s2) by (unfold rows in Hrows; lia).
  assert (Hp1 : length s1 = S (length p1)).
  { rewrite E1 at 1. rewrite length_app. simpl. lia. }
  assert (Hp2 : length s2 = S (length p2)).
  { rewrite E2 at 1. rewrite length_app. simpl. lia. }
  assert (Hpose : p1 = p2).
  { assert (F1 : firstn (length p1) s1 = p1).
    { rewrite E1. replace (length p1) with (length p1 + 0)%nat at 1 by lia.
      rewrite firstn_app_2. simpl. apply app_nil_r. }
    assert (F2 : firstn (length p1) s2 = p2).
    { rewrite E2. replace (length p1) with (length p2 + 0)%nat by lia.
      rewrite firstn_app_2. simpl. apply app_nil_r. }
    rewrite <- F1, <- F2.
    apply firstn_pointwise; [exact Hlen|].
    intros i Hi.
    specialize (Hagree (Z.of_nat i)).
    rewrite !coeff_in_range in Hagree by (unfold rows; lia).
    rewrite Nat2Z.id in Hagree. apply Hagree. unfold rows. lia. }
  exists (PosOrnKeypoint_diff (base kp) p1).
  exists (continuous_time_ kp - t1)%float, (continuous_time_ kp - t2)%float.
  split.
  - rewrite E1. apply diff_of_accesses; [apply head_snoc|apply coeff_snoc].
  - rewrite E2, Hpose.
    apply diff_of_accesses; [apply head_snoc|apply coeff_snoc].
Qed.

Lemma diff_time_reaches_last_entry_only_witness :
  exists r e1 e2,
    diff reach_in_2s [1; 1; 0.25; 0.5]%float = Some (r ++ [e1])
    /\ diff reach_in_2s [1; 1; 0.25; 1.75]%float = Some (r ++ [e2]).
Proof.
  apply diff_time_reaches_last_entry_only.
  - reflexivity.
  - reflexivity.
  - intros i Hi. change (rows [1; 1; 0.25; 0.5]%float - 1) with 3 in Hi.
    assert (Hcases : i = 0 \/ i = 1 \/ i = 2) by lia.
    destruct Hcases as [-> | [-> | ->]]; reflexivity.
Defined.

(** C10.  [SpacetimeKeypoint::diff] reads [state(rows - 1)] and takes
    [state.head(rows - 1)].  On a state with at least one coefficient both
    accesses are in range and the call returns a residual; on the empty
    state both are out of range (index and length -1) and nothing in the
    function handles it, so the call has no value. *)
Theorem diff_defined_exactly_on_nonempty_states
    (kp : SpacetimeKeypoint) (state : VectorXd) :
  match state with
  | [] =>
      head state (rows state - 1) = None
      /\ coeff state (rows state - 1) = None
      /\ diff kp state = None
  | _ :: _ =>
      head state (rows state - 1) = Some (removelast state)
      /\ coeff state (rows state - 1) = Some (last state 0%float)
      /\ exists r, diff kp state = Some r
  end.
Proof.
  destruct state as [|x v].
  - split; [|split].
    + apply head_out_of_range. left. unfold rows. simpl. lia.
    + apply coeff_out_of_range. left. unfold rows. simpl. lia.
    + apply diff_of_empty.
  - assert (Hpos : 0 < rows (x :: v)) by (unfold rows; simpl; lia).
    pose proof (@nonempty_snoc (x :: v) Hpos) as E.
    set (state := x :: v) in *.
    assert (Hhead : head state (rows state - 1) = Some (removelast state)).
    { rewrite E at 1 2. apply head_snoc. }
    assert (Hcoeff : coeff state (rows state - 1) = Some (last state 0%float)).
    { rewrite E at 1 2. apply coeff_snoc. }
    split; [exact Hhead|]. split; [exact Hcoeff|].
    eexists. eapply diff_of_accesses; [exact Hhead|exact Hcoeff].
Qed.

End SpacetimeKeypointFacts.

(** ** The outer loop of the solver *)

Module SolverFacts.
Import solver Examples.
Local Open Scope Q_scope.

Lemma Qltb_lt (x y : Q) : Qltb x y = true <-> x < y.
Proof. unfold Qltb, Qlt. apply Z.ltb_lt. Qed.

Lemma last_cons (T : Type) (l : list T) :
  forall a d : T, last (a :: l) d = last l a.
Proof.
  induction l as [|x l IH]; intros a d; [reflexivity|].
  change (last (a :: x :: l) d) with (last (x :: l) d).
  rewrite (IH x d), (IH x a). reflexivity.
Qed.

Section Loop.
Variable pol : Policy.
Variable self : AL_ILQR.
Variable args : SolveArgs.

(** *** Line search *)

Lemma line_search_from_decreases_or_keeps
    (n : nat) (cost_of : Trajectory -> Q) (prev : Trajectory)
    (gains : list Gain) :
  forall alpha,
    let next := line_search_from self n alpha cost_of prev gains in
    cost_of next < cost_of prev \/ next = prev.
Proof.
  induction n as [|n IH]; intros alpha; simpl;
    destruct (Qltb (cost_of (forward_pass self alpha prev gains)) (cost_of prev))
      eqn:Hlt.
  - left. apply Qltb_lt. exact Hlt.
  - right. reflexivity.
  - left. apply Qltb_lt. exact Hlt.
  - apply IH.
Qed.

Lemma line_search_from_cases
    (n : nat) (cost_of : Trajectory -> Q) (prev : Trajectory)
    (gains : list Gain) :
  forall alpha,
    let next := line_search_from self n alpha cost_of prev gains in
    (exists a, next = forward_pass self a prev gains) \/ next = prev.
Proof.
  induction n as [|n IH]; intros alpha; simpl;
    destruct (Qltb (cost_of (forward_pass self alpha prev gains)) (cost_of prev)).
  - left. exists alpha. reflexivity.
  - right. reflexivity.
  - left. exists alpha. reflexivity.
  - apply IH.
Qed.

Lemma line_search_from_exhausted
    (n : nat) (cost_of : Trajectory -> Q) (prev : Trajectory)
    (gains : list Gain) :
  forall alpha,
    (forall a, In a (step_sizes n alpha) ->
               ~ cost_of (forward_pass self a prev gains) < cost_of prev) ->
    line_search_from self n alpha cost_of prev gains = prev.
Proof.
  induction n as [|n IH]; intros alpha Hnone; cbn [line_search_from];
    destruct (Qltb (cost_of (forward_pass self alpha prev gains)) (cost_of prev))
      eqn:Hlt;
    try reflexivity;
    try (exfalso; apply (Hnone alpha); [left; reflexivity|];
         apply Qltb_lt; exact Hlt).
  apply IH. intros a Ha. apply Hnone. right. exact Ha.
Qed.

Lemma optimize_decreases_or_keeps (lam : list Vector) (penalty : Q)
    (prev : Trajectory) :
  let next := optimize pol self true lam penalty prev in
  total_cost self lam penalty next < total_cost self lam penalty prev
  \/ next = prev.
Proof.
  unfold optimize.
  destruct (backward_pass pol self lam penalty prev) as [gains|].
  - apply line_search_from_decreases_or_keeps.
  - right. reflexivity.
Qed.

(** *** The states of a call, one outer iteration apart *)

Lemma outer_loop_trace_step (n : nat) :
  forall (i0 : Z) (st0 : LoopState) (j : nat) (st st' : LoopState),
    nth_error (st0 :: outer_loop_trace pol self args n i0 st0) j = Some st ->
    nth_error (st0 :: outer_loop_trace pol self args n i0 st0) (S j) = Some st' ->
    st' = outer_iteration pol self args (i0 + Z.of_nat j)%Z st.
Proof.
  induction n as [|n IH]; intros i0 st0 j st st' Hj HSj.
  - destruct j as [|[|j]]; discriminate.
  - cbn [outer_loop_trace] in Hj, HSj.
    set (st1 := outer_iteration pol self args i0 st0) in *.
    destruct j as [|j]; cbn [nth_error] in Hj, HSj.
    + replace (i0 + Z.of_nat 0)%Z with i0 by lia. subst st1. congruence.
    + destruct (stopped st1).
      * destruct j; discriminate.
      * replace (i0 + Z.of_nat (S j))%Z with ((i0 + 1) + Z.of_nat j)%Z by lia.
        apply (IH (i0 + 1)%Z st1); assumption.
Qed.

Lemma solve_trace_step (j : nat) (st st' : LoopState) :
  nth_error (solve_trace pol self args) j = Some st ->
  nth_error (solve_trace pol self args) (S j) = Some st' ->
  st' = outer_iteration pol self args (Z.of_nat j) st.
Proof.
  unfold solve_trace.
  destruct (valid_configuration self args); [|destruct j; discriminate].
  intros Hj HSj.
  apply (outer_loop_trace_step _ _ _ _ Hj HSj).
Qed.

Lemma solve_trace_valid (j : nat) (st : LoopState) :
  nth_error (solve_trace pol self args) j = Some st ->
  valid_configuration self args = true.
Proof.
  unfold solve_trace.
  destruct (valid_configuration self args); [reflexivity|].
  destruct j; discriminate.
Qed.

(** A property of the starting state that every outer iteration keeps holds
    of every state of the loop. *)
Lemma outer_loop_trace_invariant (P : LoopState -> Prop) :
  (forall i st, P st -> P (outer_iteration pol self args i st)) ->
  forall (n : nat) (i0 : Z) (st0 : LoopState),
    P st0 -> Forall P (outer_loop_trace pol self args n i0 st0).
Proof.
  intros Hkeep. induction n as [|n IH]; intros i0 st0 H0;
    cbn [outer_loop_trace].
  - constructor.
  - constructor; [apply Hkeep; exact H0|].
    destruct (stopped (outer_iteration pol self args i0 st0)).
    + constructor.
    + apply IH. apply Hkeep. exact H0.
Qed.

Lemma solve_trace_invariant (P : LoopState -> Prop) :
  (forall i st, P st -> P (outer_iteration pol self args i st)) ->
  P (initial_loop_state self args) ->
  Forall P (solve_trace pol self args).
Proof.
  intros Hkeep H0. unfold solve_trace.
  destruct (valid_configuration self args); constructor.
  - exact H0.
  - apply outer_loop_trace_invariant; assumption.
Qed.

(** The loop ends in the last state of its trace. *)
Lemma outer_loop_is_last_of_trace (n : nat) :
  forall (i0 : Z) (st0 : LoopState),
    outer_loop pol self args n i0 st0
    = last (outer_loop_trace pol self args n i0 st0) st0.
Proof.
  induction n as [|n IH]; intros i0 st0; [reflexivity|].
  cbn [outer_loop outer_loop_trace].
  rewrite last_cons.
  destruct (stopped (outer_iteration pol self args i0 st0)).
  - reflexivity.
  - apply IH.
Qed.

(** *** Lengths along the loop *)

Lemma forward_from_lengths (alpha : Q) (olds : list (Vector * Vector * Gain)) :
  forall x,
    length (fst (forward_from self alpha x olds)) = S (length olds)
    /\ length (snd (forward_from self alpha x olds)) = length olds.
Proof.
  induction olds as [|[[x_old u_old] g] rest IH]; intros x.
  - split; reflexivity.
  - cbn [forward_from].
    set (x_next := dynamics (s self) x _).
    destruct (IH x_next) as [Hxs Hus].
    destruct (forward_from self alpha x_next rest) as [xs us].
    cbn [fst snd length] in *. split; congruence.
Qed.

Lemma forward_pass_over_horizon (alpha : Q) (old : Trajectory)
    (gains : list Gain) :
  over_horizon self old ->
  length gains = length (controls old) ->
  over_horizon self (forward_pass self alpha old gains).
Proof.
  intros [Hxs Hus] Hgains. unfold forward_pass, over_horizon.
  set (olds := combine (combine (states old) (controls old)) gains).
  assert (Holds : length olds = horizon (s self)).
  { unfold olds. rewrite !length_combine. lia. }
  destruct (forward_from_lengths alpha olds (initial_state (s self)))
    as [H1 H2].
  destruct (forward_from self alpha (initial_state (s self)) olds) as [xs us].
  cbn [fst snd states controls] in *. split; congruence.
Qed.

Lemma rollout_length (U : list Vector) :
  forall x, length (rollout self x U) = S (length U).
Proof.
  induction U as [|u U IH]; intros x; [reflexivity|].
  cbn [rollout length]. rewrite IH. reflexivity.
Qed.

Lemma violations_from_length (xs : list Vector) :
  forall (us : list Vector) (k : nat),
    length (violations_from self k xs us) = Nat.min (length xs) (length us).
Proof.
  induction xs as [|x xs IH]; intros [|u us] k; try reflexivity.
  cbn [violations_from length]. rewrite IH. reflexivity.
Qed.

Lemma optimize_keeps_when_exhausted (lam : list Vector) (penalty : Q)
    (prev : Trajectory) :
  (forall gains a,
     backward_pass pol self lam penalty prev = Some gains ->
     In a (step_sizes (backtracks pol) 1) ->
     ~ total_cost self lam penalty (forward_pass self a prev gains)
       < total_cost self lam penalty prev) ->
  optimize pol self true lam penalty prev = prev.
Proof.
  intro Hnone. unfold optimize.
  destruct (backward_pass pol self lam penalty prev) as [gains|];
    [|reflexivity].
  apply line_search_from_exhausted.
  intros a Ha. apply (Hnone gains a eq_refl Ha).
Qed.

Lemma optimize_cases (ls : bool) (lam : list Vector) (penalty : Q)
    (prev : Trajectory) :
  optimize pol self ls lam penalty prev = prev
  \/ exists alpha gains,
       backward_pass pol self lam penalty prev = Some gains
       /\ optimize pol self ls lam penalty prev
          = forward_pass self alpha prev gains.
Proof.
  unfold optimize.
  destruct (backward_pass pol self lam penalty prev) as [gains|];
    [|left; reflexivity].
  destruct ls.
  - destruct (line_search_from_cases (backtracks pol)
                (total_cost self lam penalty) prev gains 1) as [[a Ha]|Hkeep].
    + right. exists a, gains. split; [reflexivity|exact Ha].
    + left. exact Hkeep.
  - right. exists 1, gains. split; reflexivity.
Qed.

Lemma forward_from_is_rollout (alpha : Q)
    (olds : list (Vector * Vector * Gain)) :
  forall x,
    fst (forward_from self alpha x olds)
    = rollout self x (snd (forward_from self alpha x olds)).
Proof.
  induction olds as [|[[x_old u_old] g] rest IH]; intros x.
  - reflexivity.
  - cbn [forward_from].
    set (u_new := vadd _ _).
    specialize (IH (dynamics (s self) x u_new)).
    destruct (forward_from self alpha (dynamics (s self) x u_new) rest)
      as [xs us].
    cbn [fst snd rollout] in *. rewrite IH. reflexivity.
Qed.

Lemma forward_pass_is_rollout (alpha : Q) (old : Trajectory)
    (gains : list Gain) :
  states (forward_pass self alpha old gains)
  = rollout self (initial_state (s self))
      (controls (forward_pass self alpha old gains)).
Proof.
  unfold forward_pass.
  pose proof (forward_from_is_rollout alpha
                (combine (combine (states old) (controls old)) gains)
                (initial_state (s self))) as H.
  destruct (forward_from self alpha (initial_state (s self))
              (combine (combine (states old) (controls old)) gains))
    as [xs us].
  exact H.
Qed.

Lemma outer_iteration_keeps_shape (i : Z) (st : LoopState) :
  gains_per_timestep pol ->
  over_horizon self (traj st)
  /\ states (traj st)
     = rollout self (initial_state (s self)) (controls (traj st)) ->
  over_horizon self (traj (outer_iteration pol self args i st))
  /\ states (traj (outer_iteration pol self args i st))
     = rollout self (initial_state (s self))
         (controls (traj (outer_iteration pol self args i st))).
Proof.
  intros Hgains [Hover Hroll]. cbn [outer_iteration traj].
  destruct (optimize_cases (line_search args) (lambda st) (mu st) (traj st))
    as [-> | [alpha [gains [Hbp ->]]]].
  - split; assumption.
  - split.
    + apply forward_pass_over_horizon; [exact Hover|].
      apply (Hgains _ _ _ _ _ Hbp).
    + apply forward_pass_is_rollout.
Qed.

Lemma initial_loop_state_shape :
  valid_configuration self args = true ->
  over_horizon self (traj (initial_loop_state self args))
  /\ states (traj (initial_loop_state self args))
     = rollout self (initial_state (s self))
         (controls (traj (initial_loop_state self args))).
Proof.
  intro Hvalid. cbn [initial_loop_state traj]. split.
  - unfold over_horizon, initial_trajectory. cbn [states controls].
    rewrite rollout_length.
    unfold valid_configuration in Hvalid.
    repeat (apply andb_prop in Hvalid; destruct Hvalid as [Hvalid ?]).
    match goal with
    | H : (length (U0 args) =? _)%nat = true |- _ =>
        apply Nat.eqb_eq in H; rewrite H
    end.
    split; reflexivity.
  - reflexivity.
Qed.

Lemma valid_configuration_horizon :
  valid_configuration self args = true ->
  length (U0 args) = horizon (s self).
Proof.
  unfold valid_configuration. intro H.
  repeat (apply andb_prop in H; destruct H as [H ?]).
  apply Nat.eqb_eq. assumption.
Qed.

Lemma valid_configuration_penalty :
  valid_configuration self args = true -> 0 < penalty0 args.
Proof.
  unfold valid_configuration. intro H.
  repeat (apply andb_prop in H; destruct H as [H ?]).
  apply Qltb_lt. assumption.
Qed.

(** *** Multipliers and penalty *)




Lemma outer_iteration_keeps_penalty_positive (i : Z) (st : LoopState) :
  1 <= scaling_factor args ->
  0 < mu st -> 0 < mu (outer_iteration pol self args i st).
Proof.
  intros Hsf Hmu. cbn [outer_iteration mu].
  destruct (i mod lag_update_step args =? 0)%Z; [|exact Hmu].
  apply Qmult_lt_0_compat; [exact Hmu|].
  apply Qlt_le_trans with 1; [reflexivity|exact Hsf].
Qed.

Lemma scaled_penalty_not_smaller (p sf : Q) :
  0 < p -> 1 <= sf -> p <= p * sf.
Proof. intros Hp Hsf. nra. Qed.

(** *** The claims about [solve] *)

(** Line search, one outer iteration at a time.  With [line_search = true],
    the trajectory an outer iteration ends with either has a strictly
    smaller total augmented cost than the one it started from, both costed
    with the multipliers and the penalty in force during that iteration, or
    it is the one it started from, unchanged; so, costed that way, the cost
    does not go up.  When no step size that backtracking tries gives a strict
    decrease, the trajectory is the one the iteration started from. *)
Theorem line_search_decreases_cost_or_keeps_trajectory
    (i : nat) (st st' : LoopState) :
  line_search args = true ->
  nth_error (solve_trace pol self args) i = Some st ->
  nth_error (solve_trace pol self args) (S i) = Some st' ->
  (total_cost self (lambda st) (mu st) (traj st')
     < total_cost self (lambda st) (mu st) (traj st)
   \/ traj st' = traj st)
  /\ total_cost self (lambda st) (mu st) (traj st')
     <= total_cost self (lambda st) (mu st) (traj st)
  /\ ((forall gains a,
         backward_pass pol self (lambda st) (mu st) (traj st) = Some gains ->
         In a (step_sizes (backtracks pol) 1) ->
         ~ total_cost self (lambda st) (mu st)
             (forward_pass self a (traj st) gains)
           < total_cost self (lambda st) (mu st) (traj st)) ->
      traj st' = traj st).
Proof.
  intros Hls Hi HSi.
  rewrite (solve_trace_step _ Hi HSi).
  cbn [outer_iteration traj]. rewrite Hls.
  pose proof (optimize_decreases_or_keeps (lambda st) (mu st) (traj st)) as H.
  cbv zeta in H. split; [exact H|]. split.
  - destruct H as [Hlt | ->].
    + apply Qlt_le_weak. exact Hlt.
    + apply Qle_refl.
  - apply optimize_keeps_when_exhausted.
Qed.

Lemma penalty_of_next_state (i : nat) (st st' : LoopState) :
  1 <= scaling_factor args ->
  nth_error (solve_trace pol self args) i = Some st ->
  nth_error (solve_trace pol self args) (S i) = Some st' ->
  mu st <= mu st'
  /\ if (Z.of_nat i mod lag_update_step args =? 0)%Z
     then mu st' = mu st * scaling_factor args
          /\ lambda st'
             = update_multipliers (mu st) (lambda st)
                 (violations self (traj st'))
     else mu st' = mu st /\ lambda st' = lambda st.
Proof.
  intros Hsf Hi HSi.
  pose proof (solve_trace_valid _ Hi) as Hvalid.
  assert (Hpos : 0 < mu st).
  { assert (Hall : Forall (fun x => 0 < mu x) (solve_trace pol self args)).
    { apply solve_trace_invariant.
      - intros j x. apply outer_iteration_keeps_penalty_positive. exact Hsf.
      - apply valid_configuration_penalty. exact Hvalid. }
    rewrite Forall_forall in Hall. apply Hall.
    apply (nth_error_In _ _ Hi). }
  rewrite (solve_trace_step _ Hi HSi).
  cbn [outer_iteration traj lambda mu].
  destruct (Z.of_nat i mod lag_update_step args =? 0)%Z.
  - split; [|split; reflexivity].
    apply scaled_penalty_not_smaller; assumption.
  - split; [|split; reflexivity]. apply Qle_refl.
Qed.

(** C6.  With [scaling_factor >= 1], the penalty of a call starts at the
    value the caller gave and never decreases afterwards: the penalty after
    any later outer iteration is at least the penalty after an earlier one.
    From one outer iteration to the next it is multiplied by
    [scaling_factor] when the iteration updates the multipliers and is the
    same otherwise; nothing else ever sets it. *)
Theorem penalty_never_decreases (i : nat) (st : LoopState) :
  1 <= scaling_factor args ->
  nth_error (solve_trace pol self args) i = Some st ->
  (forall st0, nth_error (solve_trace pol self args) 0 = Some st0 ->
               mu st0 = penalty0 args)
  /\ (forall j st_j,
        (i <= j)%nat ->
        nth_error (solve_trace pol self args) j = Some st_j ->
        mu st <= mu st_j)
  /\ (forall st',
        nth_error (solve_trace pol self args) (S i) = Some st' ->
        if (Z.of_nat i mod lag_update_step args =? 0)%Z
        then mu st' = mu st * scaling_factor args
             /\ lambda st'
                = update_multipliers (mu st) (lambda st)
                    (violations self (traj st'))
        else mu st' = mu st /\ lambda st' = lambda st).
Proof.
  intros Hsf Hi. split; [|split].
  - pose proof (solve_trace_valid _ Hi) as Hvalid.
    unfold solve_trace. rewrite Hvalid. cbn [nth_error].
    intros st0 E. inversion E. reflexivity.
  - intros j. induction j as [|j IH]; intros st_j Hle Hj.
    + assert (i = 0)%nat by lia. subst i.
      rewrite Hi in Hj. inversion Hj. apply Qle_refl.
    + destruct (Nat.eq_dec i (S j)) as [-> | Hne].
      * rewrite Hi in Hj. inversion Hj. apply Qle_refl.
      * assert (Hlt : (j < length (solve_trace pol self args))%nat).
        { apply Nat.lt_le_incl. apply nth_error_Some. congruence. }
        destruct (nth_error (solve_trace pol self args) j) as [st_p|] eqn:Hp;
          [|apply nth_error_None in Hp; lia].
        apply Qle_trans with (mu st_p).
        -- apply IH; [lia|reflexivity].
        -- apply (@penalty_of_next_state j st_p st_j Hsf Hp Hj).
  - intros st' HSi. apply (@penalty_of_next_state i st st' Hsf Hi HSi).
Qed.

(** *** Rejected calls *)

Lemma nth_error_combine_In (T U : Type) (l : list T) :
  forall (m : list U) (k : nat) (x : T) (y : U),
    nth_error l k = Some x -> nth_error m k = Some y ->
    In (x, y) (combine l m).
Proof.
  induction l as [|a l IH]; intros m k x y Hx Hy.
  - destruct k; discriminate.
  - destruct m as [|c m]; [destruct k; discriminate|].
    destruct k as [|k]; cbn [nth_error combine] in *.
    + inversion Hx; inversion Hy; subst. left. reflexivity.
    + right. apply (IH m k); assumption.
Qed.

Lemma invalid_configuration_is_rejected :
  invalid_configuration self args -> valid_configuration self args = false.
Proof.
  unfold invalid_configuration, valid_configuration.
  intros [H | [H | [H | [H | [H | [k [lambdak [c [Hl [Hc H]]]]]]]]]].
  - apply Z.ltb_ge in H. rewrite H. reflexivity.
  - apply Z.ltb_ge in H. rewrite H.
    rewrite ?andb_false_r. reflexivity.
  - assert (E : Qltb 0 (penalty0 args) = false).
    { destruct (Qltb 0 (penalty0 args)) eqn:E; [|reflexivity].
      apply Qltb_lt in E. exfalso. apply (Qlt_not_le _ _ E). exact H. }
    rewrite E. rewrite ?andb_false_r. reflexivity.
  - apply Nat.eqb_neq in H. rewrite H.
    rewrite ?andb_false_r. reflexivity.
  - apply Nat.eqb_neq in H. rewrite H.
    rewrite ?andb_false_r. reflexivity.
  - apply andb_false_iff. right.
    match goal with
    | |- ?t = false => destruct t eqn:E; [|reflexivity]
    end.
    rewrite forallb_forall in E.
    specialize (E (lambdak, c) (nth_error_combine_In _ _ _ Hl Hc)).
    cbn [fst snd] in E. apply andb_prop in E. destruct E as [E1 E2].
    apply Nat.eqb_eq in E1. apply Nat.eqb_eq in E2.
    destruct H; contradiction.
Qed.

(** C8.  A [solve] call with an invalid configuration (mismatched multiplier
    and constraint lengths, a non-positive [nb_iter], [lag_update_step] or
    [penalty], or a horizon mismatch between [U0] and the system) fails
    before any optimization work: it yields no trajectory, whatever the
    backward pass is, no outer iteration runs, and the solver object comes
    back as it was. *)
Theorem invalid_configuration_fails_before_any_work :
  invalid_configuration self args ->
  solve pol self args = (None, self)
  /\ solve_trace pol self args = []
  /\ forall pol', solve pol' self args = solve pol self args.
Proof.
  intro Hinvalid.
  pose proof (invalid_configuration_is_rejected Hinvalid) as Hrej.
  unfold solve, solve_trace. rewrite Hrej.
  split; [reflexivity|]. split; [reflexivity|].
  intros pol'. reflexivity.
Qed.

(** *** What an outer iteration does to the trajectory *)

Lemma line_search_from_outcome
    (n : nat) (cost_of : Trajectory -> Q) (prev : Trajectory)
    (gains : list Gain) :
  forall alpha,
    let next := line_search_from self n alpha cost_of prev gains in
    (next = prev
     /\ forall a, In a (step_sizes n alpha) ->
          Qltb (cost_of (forward_pass self a prev gains)) (cost_of prev)
          = false)
    \/ exists before a after,
         step_sizes n alpha = before ++ a :: after
         /\ (forall a', In a' before ->
              Qltb (cost_of (forward_pass self a' prev gains)) (cost_of prev)
              = false)
         /\ Qltb (cost_of (forward_pass self a prev gains)) (cost_of prev)
            = true
         /\ next = forward_pass self a prev gains.
Proof.
  induction n as [|n IH]; intros alpha;
    cbn [line_search_from step_sizes];
    destruct (Qltb (cost_of (forward_pass self alpha prev gains)) (cost_of prev))
      eqn:Hlt.
  - right. exists [], alpha, []. repeat split; try assumption.
    intros a' [].
  - left. split; [reflexivity|]. intros a [<- | []]. exact Hlt.
  - right. exists [], alpha, (step_sizes n (alpha / 2)).
    repeat split; try assumption. intros a' [].
  - destruct (IH (alpha / 2)) as [[Hkeep Hnone] | [before [a [after H]]]].
    + left. split; [exact Hkeep|].
      intros a [<- | Ha]; [exact Hlt|apply Hnone; exact Ha].
    + destruct H as [Hsplit [Hbefore [Hpass Hnext]]].
      right. exists (alpha :: before), a, after.
      split; [cbn [app]; rewrite Hsplit; reflexivity|].
      split; [|split; assumption].
      intros a' [<- | Ha']; [exact Hlt|apply Hbefore; exact Ha'].
Qed.

Lemma outer_iteration_keeps_or_accepts (i : Z) (st : LoopState) :
  keeps_or_accepts pol self args st (outer_iteration pol self args i st).
Proof.
  unfold keeps_or_accepts. cbn [outer_iteration traj].
  unfold optimize, tried_step_sizes, passes.
  destruct (backward_pass pol self (lambda st) (mu st) (traj st)) as [gains|];
    [|reflexivity].
  destruct (line_search args).
  - apply line_search_from_outcome.
  - right. exists [], 1, []. repeat split. intros a' [].
Qed.

(** *** Constraint values and multiplier rows *)


Lemma constraint_value_at (xk uk : Vector) (k : nat) :
  constraint_value self xk uk k
  = match nth_error (inequality self) k with
    | Some c => vsub (matvec (A c) (xk ++ uk)) (b c)
    | None => []
    end.
Proof.
  unfold constraint_value, constraints.
  destruct (nth_error (inequality self) k); reflexivity.
Qed.

Lemma violations_from_nth (xs : list Vector) :
  forall (us : list Vector) (k0 k : nat) (xk uk : Vector),
    nth_error xs k = Some xk ->
    nth_error us k = Some uk ->
    nth_error (violations_from self k0 xs us) k
    = Some (constraint_value self xk uk (k0 + k)).
Proof.
  induction xs as [|x xs IH]; intros us k0 k xk uk Hx Hu.
  - destruct k; discriminate.
  - destruct us as [|u us]; [destruct k; discriminate|].
    destruct k as [|k]; cbn [violations_from nth_error] in *.
    + inversion Hx; inversion Hu; subst. rewrite Nat.add_0_r. reflexivity.
    + rewrite (IH us (S k0) k xk uk Hx Hu). f_equal. f_equal. lia.
Qed.






Lemma nth_error_last_state (T : Type) (l : list T) :
  forall d : T, l <> [] -> nth_error l (length l - 1) = Some (last l d).
Proof.
  induction l as [|x l IH]; intros d Hne; [contradiction|].
  destruct l as [|y l]; [reflexivity|].
  assert (Hyl : y :: l <> []) by discriminate.
  specialize (IH d Hyl).
  replace (length (x :: y :: l) - 1)%nat with (S (length (y :: l) - 1))
    by (cbn [length]; lia).
  exact IH.
Qed.

(** *** The multipliers and the returned trajectory *)


(** C7.  A call that is accepted, with a backward pass that hands back one
    gain per timestep, returns three sequences: states, controls and
    constraint values, of lengths horizon + 1, horizon and horizon.  The
    states are the propagation of the controls from the initial state, and
    the constraint value of timestep [k] is [A_k*[x_k;u_k] - b_k] at the
    returned state and control.  The trajectory is the one the loop ends
    with, and the loop starts from the trajectory of [U0] and in every outer
    iteration either keeps the trajectory it has or replaces it by a forward
    pass that passed the acceptance test: what is returned is the last
    accepted forward pass, or the trajectory of [U0] when none was accepted.
    Nothing is asked of the sign of the constraint values. *)
Theorem solve_returns_last_accepted_trajectory :
  gains_per_timestep pol ->
  valid_configuration self args = true ->
  exists X U V final,
    fst (solve pol self args) = Some (X, U, V)
    /\ (length X = S (horizon (s self))
        /\ length U = horizon (s self)
        /\ length V = horizon (s self))
    /\ X = rollout self (initial_state (s self)) U
    /\ (forall k xk uk,
          nth_error X k = Some xk ->
          nth_error U k = Some uk ->
          nth_error V k
          = Some match nth_error (inequality self) k with
                 | Some c => vsub (matvec (A c) (xk ++ uk)) (b c)
                 | None => []
                 end)
    /\ nth_error (solve_trace pol self args) 0
       = Some (initial_loop_state self args)
    /\ traj (initial_loop_state self args) = initial_trajectory self (U0 args)
    /\ nth_error (solve_trace pol self args)
         (length (solve_trace pol self args) - 1) = Some final
    /\ X = states (traj final)
    /\ U = controls (traj final)
    /\ (forall j st st',
          nth_error (solve_trace pol self args) j = Some st ->
          nth_error (solve_trace pol self args) (S j) = Some st' ->
          keeps_or_accepts pol self args st st').
Proof.
  intros Hgains Hvalid.
  set (final := last (solve_trace pol self args)
                  (initial_loop_state self args)).
  assert (Hne : solve_trace pol self args <> []).
  { unfold solve_trace. rewrite Hvalid. discriminate. }
  assert (Hlast : nth_error (solve_trace pol self args)
                    (length (solve_trace pol self args) - 1) = Some final).
  { apply nth_error_last_state. exact Hne. }
  assert (Hfinal :
            final = outer_loop pol self args (Z.to_nat (nb_iter args)) 0
                      (initial_loop_state self args)).
  { unfold final, solve_trace. rewrite Hvalid.
    rewrite last_cons. symmetry. apply outer_loop_is_last_of_trace. }
  assert (Hall : Forall (fun x =>
                   over_horizon self (traj x)
                   /\ states (traj x)
                      = rollout self (initial_state (s self))
                          (controls (traj x)))
                 (solve_trace pol self args)).
  { apply solve_trace_invariant.
    - intros j x. apply outer_iteration_keeps_shape. exact Hgains.
    - apply initial_loop_state_shape. exact Hvalid. }
  rewrite Forall_forall in Hall.
  destruct (Hall final (nth_error_In _ _ Hlast)) as [[Hxs Hus] Hroll].
  exists (states (traj final)), (controls (traj final)),
         (violations self (traj final)), final.
  split.
  { unfold solve. rewrite Hvalid. cbn [fst]. rewrite <- Hfinal. reflexivity. }
  split.
  { split; [exact Hxs|]. split; [exact Hus|].
    unfold violations. rewrite violations_from_length. lia. }
  split; [exact Hroll|].
  split.
  { intros k xk uk Hx Hu. unfold violations.
    rewrite (violations_from_nth _ _ 0 _ Hx Hu).
    rewrite constraint_value_at. reflexivity. }
  split.
  { unfold solve_trace. rewrite Hvalid. reflexivity. }
  split; [reflexivity|].
  split; [exact Hlast|].
  split; [reflexivity|]. split; [reflexivity|].
  intros j st st' Hj HSj.
  rewrite (solve_trace_step _ Hj HSj).
  apply outer_iteration_keeps_or_accepts.
Qed.

End Loop.

(** *** The claims on the one-step push problem *)

Example push_trace_controls :
  map (fun st => (controls (traj st), lambda st, mu st))
      (solve_trace newton_policy push_solver push_args)
  = [ ([[0]], [[0]], 1);
      ([[1 # 3]], [[2 # 3]], 10);
      ([[24 # 27]], [[144 # 81]], 100);
      ([[12366 # 12393]], [[2003292 # 1003833]], 1000) ].
Proof. vm_compute. reflexivity. Qed.

Lemma newton_policy_gains_per_timestep : gains_per_timestep newton_policy.
Proof.
  intros solver lam penalty t gains Hbp.
  cbn [newton_policy backward_pass] in Hbp.
  inversion Hbp. apply length_map.
Qed.

(** Across outer iterations the cost of the model does go up, with line
    search on, on the push problem.  From the state after outer iteration 0
    to the state after outer iteration 1 the system's own cost of the
    trajectory rises from 1/9 to 64/81.  From the starting state to the state
    after iteration 0 the total augmented cost, costed with the multipliers
    and penalty the state holds, rises from 1/2 to 25/9.  And the total
    augmented cost the line search of an iteration accepts, costed with the
    multipliers and penalty of that iteration, is 1/3 in iteration 0 and
    25/27 in iteration 1. *)
Lemma total_cost_rises_with_line_search :
  line_search push_args = true
  /\ ~ cost_never_rises (fun st => native_cost push_solver (traj st))
         (solve_trace newton_policy push_solver push_args)
  /\ ~ cost_never_rises
         (fun st => total_cost push_solver (lambda st) (mu st) (traj st))
         (solve_trace newton_policy push_solver push_args)
  /\ exists st0 st1 st2,
       nth_error (solve_trace newton_policy push_solver push_args) 0 = Some st0
       /\ nth_error (solve_trace newton_policy push_solver push_args) 1
          = Some st1
       /\ nth_error (solve_trace newton_policy push_solver push_args) 2
          = Some st2
       /\ total_cost push_solver (lambda st0) (mu st0) (traj st1)
          < total_cost push_solver (lambda st1) (mu st1) (traj st2).
Proof.
  split; [reflexivity|]. split; [|split].
  - intro Hmono.
    assert (H : exists st st',
               nth_error (solve_trace newton_policy push_solver push_args) 1
               = Some st
               /\ nth_error (solve_trace newton_policy push_solver push_args) 2
                  = Some st'
               /\ native_cost push_solver (traj st)
                  < native_cost push_solver (traj st')).
    { eexists. eexists. split; [reflexivity|]. split; [reflexivity|].
      vm_compute. reflexivity. }
    destruct H as [st [st' [H1 [H2 Hlt]]]].
    apply (Qlt_not_le _ _ Hlt). apply (Hmono 1%nat st st' H1 H2).
  - intro Hmono.
    assert (H : exists st st',
               nth_error (solve_trace newton_policy push_solver push_args) 0
               = Some st
               /\ nth_error (solve_trace newton_policy push_solver push_args) 1
                  = Some st'
               /\ total_cost push_solver (lambda st) (mu st) (traj st)
                  < total_cost push_solver (lambda st') (mu st') (traj st')).
    { eexists. eexists. split; [reflexivity|]. split; [reflexivity|].
      vm_compute. reflexivity. }
    destruct H as [st [st' [H1 [H2 Hlt]]]].
    apply (Qlt_not_le _ _ Hlt). apply (Hmono 0%nat st st' H1 H2).
  - eexists. eexists. eexists.
    split; [reflexivity|]. split; [reflexivity|]. split; [reflexivity|].
    vm_compute. reflexivity.
Qed.

Example push_lag2_multipliers :
  map (fun st => (lambda st, mu st))
      (solve_trace newton_policy push_solver push_args_lag2)
  = [ ([[0]], 1);
      ([[2 # 3]], 10);
      ([[2 # 3]], 10);
      ([[144 # 81]], 100);
      ([[144 # 81]], 100) ].
Proof. vm_compute. reflexivity. Qed.

Lemma penalty_never_decreases_witness :
  let st0 := initial_loop_state push_solver push_args in
  1 <= scaling_factor push_args
  /\ nth_error (solve_trace newton_policy push_solver push_args) 0 = Some st0
  /\ forall st3,
       nth_error (solve_trace newton_policy push_solver push_args) 3 = Some st3 ->
       mu st0 <= mu st3.
Proof.
  split; [discriminate|]. split; [reflexivity|].
  intros st3 H3.
  destruct (@penalty_never_decreases newton_policy push_solver push_args 0
              (initial_loop_state push_solver push_args))
    as [_ [Hlater _]]; [discriminate | reflexivity |].
  apply (Hlater 3%nat st3); [lia | exact H3].
Defined.

(** The push problem after three outer iterations: the call returns its
    trajectory although the constraint value [1 - u] is still positive. *)
Example push_solve_returns_infeasible_trajectory :
  fst (solve newton_policy push_solver push_args)
  = Some ([[0]; [12366 # 12393]], [[12366 # 12393]], [[27 # 12393]]).
Proof. vm_compute. reflexivity. Qed.


Lemma solve_returns_last_accepted_trajectory_witness :
  gains_per_timestep newton_policy
  /\ valid_configuration push_solver push_args = true
  /\ exists X U V,
       fst (solve newton_policy push_solver push_args) = Some (X, U, V)
       /\ length X = 2%nat /\ length U = 1%nat /\ length V = 1%nat
       /\ X = rollout push_solver (initial_state (s push_solver)) U.
Proof.
  split; [exact newton_policy_gains_per_timestep|]. split; [reflexivity|].
  destruct (@solve_returns_last_accepted_trajectory
              newton_policy push_solver push_args
              newton_policy_gains_per_timestep eq_refl)
    as [X [U [V [final [Hret [[Hx [Hu Hv]] [Hroll _]]]]]]].
  exists X, U, V. repeat split; assumption.
Defined.

(** The augmented loss of the spec depends on the penalty: with the state,
    control, timestep, multiplier, constraint value and mask all fixed, it is
    1/2 under penalty 1 and 5 under penalty 10.  So no function of those six
    arguments alone, the ones the declaration of [AL_ILQR::augmentedLossK]
    lists, computes the formula for every penalty. *)
Lemma augmented_loss_needs_the_penalty :
  ~ exists f : Vector -> Vector -> nat -> Vector -> Vector -> Matrix -> Q,
      forall penalty xk uk k lambdak Ck Ik,
        f xk uk k lambdak Ck Ik
        == augmented_loss push_solver penalty xk uk k lambdak Ck Ik.
Proof.
  intros [f Hf].
  pose proof (Hf 1 [0] [0] 0%nat [0] [1] [[1]]) as H1.
  pose proof (Hf 10 [0] [0] 0%nat [0] [1] [[1]]) as H10.
  rewrite H1 in H10. vm_compute in H10. discriminate.
Qed.

(** The push problem called with no initial control: the horizon is 1. *)
Lemma invalid_configuration_fails_before_any_work_witness :
  let no_controls :=
    {| U0 := []; nb_iter := 3; lag_update_step := 1; penalty0 := 1;
       scaling_factor := 10; line_search := true; early_stop := false |} in
  invalid_configuration push_solver no_controls
  /\ solve newton_policy push_solver no_controls = (None, push_solver)
  /\ solve_trace newton_policy push_solver no_controls = [].
Proof.
  intros no_controls.
  assert (Hinvalid : invalid_configuration push_solver no_controls).
  { right. right. right. left. discriminate. }
  split; [exact Hinvalid|].
  destruct (@invalid_configuration_fails_before_any_work
              newton_policy push_solver no_controls Hinvalid)
    as [Hnone [Htrace _]].
  split; assumption.
Defined.

End SolverFacts.

(** ** Binary64 subtraction at the edges

    What [continuous_time_ - t] evaluates to when the two times are the same
    double or when one of them is not finite, from the specification of the
    primitive floats. *)

Module FloatFacts.

Lemma is_nan_iff (x : float) : is_nan x = true <-> Prim2SF x = S754_nan.
Proof.
  unfold is_nan. rewrite FloatAxioms.eqb_spec.
  destruct (Prim2SF x) as [s | s | | s m e]; simpl.
  - split; discriminate.
  - destruct s; split; discriminate.
  - split; reflexivity.
  - unfold SFeqb, SFcompare.
    destruct s; rewrite Z.compare_refl, Pos.compare_cont_refl; simpl;
      split; discriminate.
Qed.

(** A double is finite when it is a zero or a (sub)normal number. *)
Lemma is_finite_iff (x : float) :
  is_finite x = true <->
  match Prim2SF x with
  | S754_zero _ | S754_finite _ _ _ => True
  | S754_infinity _ | S754_nan => False
  end.
Proof.
  unfold is_finite, is_infinity.
  rewrite FloatAxioms.eqb_spec, FloatAxioms.abs_spec.
  pose proof (is_nan_iff x) as Hnan.
  destruct (Prim2SF x) as [s | s | | s m e] eqn:E; simpl.
  - destruct (is_nan x); [destruct Hnan as [H _]; discriminate (H eq_refl)|].
    simpl. split; auto.
  - destruct (is_nan x); [destruct Hnan as [H _]; discriminate (H eq_refl)|].
    simpl. split; [discriminate|contradiction].
  - destruct Hnan as [_ H]. rewrite (H eq_refl). simpl.
    split; [discriminate|contradiction].
  - destruct (is_nan x); [destruct Hnan as [H _]; discriminate (H eq_refl)|].
    simpl. split; auto.
Qed.

Lemma not_finite_cases (x : float) :
  is_finite x = false ->
  Prim2SF x = S754_nan \/ exists s, Prim2SF x = S754_infinity s.
Proof.
  intro Hx. pose proof (is_finite_iff x) as Hfin. rewrite Hx in Hfin.
  destruct (Prim2SF x) as [s | s | | s m e].
  - destruct Hfin as [_ H]. discriminate (H I).
  - right. exists s. reflexivity.
  - left. reflexivity.
  - destruct Hfin as [_ H]. discriminate (H I).
Qed.

(** A double minus itself is [+0] when it is finite, and NaN when it is an
    infinity or NaN. *)
Lemma sub_self (x : float) :
  (x - x)%float = if is_finite x then 0%float else nan.
Proof.
  apply Prim2SF_inj. rewrite FloatAxioms.sub_spec.
  pose proof (is_finite_iff x) as Hfin.
  destruct (Prim2SF x) as [s | s | | s m e] eqn:E.
  - destruct (is_finite x); [|destruct Hfin as [_ H]; discriminate (H I)].
    destruct s; reflexivity.
  - destruct (is_finite x); [destruct Hfin as [H _]; destruct (H eq_refl)|].
    destruct s; reflexivity.
  - destruct (is_finite x); [destruct Hfin as [H _]; destruct (H eq_refl)|].
    reflexivity.
  - destruct (is_finite x); [|destruct Hfin as [_ H]; discriminate (H I)].
    unfold SF64sub, SFsub. cbv zeta. rewrite Z.sub_diag. reflexivity.
Qed.

(** A difference with an operand that is not finite is not finite. *)
Lemma sub_not_finite (x y : float) :
  is_finite x = false \/ is_finite y = false ->
  is_finite (x - y)%float = false.
Proof.
  intro Hxy.
  destruct (is_finite (x - y)%float) eqn:E; [|reflexivity].
  exfalso. apply is_finite_iff in E. rewrite FloatAxioms.sub_spec in E.
  destruct Hxy as [Hx | Hy].
  - destruct (not_finite_cases x Hx) as [Hn | [s Hi]].
    + rewrite Hn in E. exact E.
    + rewrite Hi in E.
      destruct (Prim2SF y) as [sy | sy | | sy my ey]; try exact E.
      destruct s, sy; exact E.
  - destruct (not_finite_cases y Hy) as [Hn | [s Hi]].
    + rewrite Hn in E.
      destruct (Prim2SF x) as [sx | sx | | sx mx ex]; exact E.
    + rewrite Hi in E.
      destruct (Prim2SF x) as [sx | sx | | sx mx ex]; try exact E.
      destruct sx, s; exact E.
Qed.

(** A difference with a NaN operand is NaN. *)
Lemma sub_nan (x y : float) :
  is_nan x = true \/ is_nan y = true -> is_nan (x - y)%float = true.
Proof.
  intro Hxy. apply is_nan_iff. rewrite FloatAxioms.sub_spec.
  destruct Hxy as [Hx | Hy].
  - apply is_nan_iff in Hx. rewrite Hx. reflexivity.
  - apply is_nan_iff in Hy. rewrite Hy.
    destruct (Prim2SF x) as [sx | sx | | sx mx ex]; reflexivity.
Qed.

End FloatFacts.

(** ** More on the time-augmented keypoint *)

Module SpacetimeKeypointEdges.
Import Eigen EigenFacts sys Examples SpacetimeKeypointFacts FloatFacts.

Lemma getState_value (kp : SpacetimeKeypoint) :
  getState kp
  = Some (PosOrnKeypoint_getState (base kp) ++ [continuous_time_ kp]).
Proof.
  unfold getState.
  set (state := PosOrnKeypoint_getState (base kp)).
  destruct (Zero_ok (n := rows state + 1)) as [z [Hz Hrows]].
  { pose proof (rows_nonneg state). lia. }
  rewrite Hz. cbn [bind]. apply comma_init_fills. exact Hrows.
Qed.

Lemma diff_snoc (kp : SpacetimeKeypoint) (pose : VectorXd) (t : double) :
  diff kp (pose ++ [t])
  = Some (PosOrnKeypoint_diff (base kp) pose
          ++ [(continuous_time_ kp - t)%float]).
Proof. apply diff_of_accesses; [apply head_snoc|apply coeff_snoc]. Qed.

(** X1.  The residual of a state that ends in the target's own time, and in
    particular of the state [getState] returns, is always defined: its pose
    part is the base keypoint's residual, and its time entry is [+0] when
    the target time is finite and NaN when it is an infinity or NaN. *)
Theorem diff_at_own_time (kp : SpacetimeKeypoint) :
  let time_entry :=
    if is_finite (continuous_time_ kp) then 0%float else nan in
  (forall pose,
     diff kp (pose ++ [continuous_time_ kp])
     = Some (PosOrnKeypoint_diff (base kp) pose ++ [time_entry]))
  /\ bind (getState kp) (diff kp)
     = Some (PosOrnKeypoint_diff (base kp) (PosOrnKeypoint_getState (base kp))
             ++ [time_entry]).
Proof.
  intros time_entry.
  assert (Hgeneral : forall pose,
             diff kp (pose ++ [continuous_time_ kp])
             = Some (PosOrnKeypoint_diff (base kp) pose ++ [time_entry])).
  { intros pose. rewrite diff_snoc. unfold time_entry.
    rewrite sub_self. reflexivity. }
  split; [exact Hgeneral|].
  rewrite getState_value. cbn [bind]. apply Hgeneral.
Qed.

(** X2.  [diff] does not reject a time that is not finite.  When the time
    of the state or the time of the target is an infinity or NaN, the call
    still returns the pose residual, followed by a time entry that is not
    finite; when one of the two times is NaN that entry is NaN. *)
Theorem diff_propagates_non_finite_time
    (kp : SpacetimeKeypoint) (pose : VectorXd) (t : double) :
  is_finite t = false \/ is_finite (continuous_time_ kp) = false ->
  exists e,
    diff kp (pose ++ [t]) = Some (PosOrnKeypoint_diff (base kp) pose ++ [e])
    /\ is_finite e = false
    /\ (is_nan t = true \/ is_nan (continuous_time_ kp) = true ->
        is_nan e = true).
Proof.
  intros Hnot.
  exists (continuous_time_ kp - t)%float.
  split; [apply diff_snoc|]. split.
  - apply sub_not_finite. destruct Hnot; [right|left]; assumption.
  - intros Hnan. apply sub_nan. destruct Hnan; [right|left]; assumption.
Qed.

Lemma diff_propagates_non_finite_time_witness :
  is_finite infinity = false
  /\ exists e,
       diff reach_in_2s ([1; 1; 0.25] ++ [infinity])%float
       = Some (PosOrnKeypoint_diff (base reach_in_2s) [1; 1; 0.25]%float ++ [e])
       /\ is_finite e = false.
Proof.
  split; [reflexivity|].
  destruct (@diff_propagates_non_finite_time reach_in_2s
              [1; 1; 0.25]%float infinity)
    as [e [Hdiff [Hfin _]]]; [left; reflexivity|].
  exists e. split; assumption.
Defined.

(** X3.  The time entry of the residual is fixed by the target's time and
    the last coefficient of the state alone: two calls of [diff] with the
    same target time and states that end in the same coefficient, whatever
    their pose keypoints, the poses in the states and the lengths of the
    states, return residuals with the same last entry. *)
Theorem diff_time_entry_ignores_pose
    (kp1 kp2 : SpacetimeKeypoint) (s1 s2 : VectorXd) :
  continuous_time_ kp1 = continuous_time_ kp2 ->
  0 < rows s1 ->
  0 < rows s2 ->
  coeff s1 (rows s1 - 1) = coeff s2 (rows s2 - 1) ->
  exists r1 r2 e,
    diff kp1 s1 = Some (r1 ++ [e]) /\ diff kp2 s2 = Some (r2 ++ [e]).
Proof.
  intros Htime Hpos1 Hpos2 Hlast.
  pose proof (@nonempty_snoc s1 Hpos1) as E1.
  pose proof (@nonempty_snoc s2 Hpos2) as E2.
  set (p1 := removelast s1) in *. set (t1 := last s1 0%float) in *.
  set (p2 := removelast s2) in *. set (t2 := last s2 0%float) in *.
  assert (Ht : t1 = t2).
  { rewrite E1, E2 in Hlast. rewrite !coeff_snoc in Hlast.
    inversion Hlast. reflexivity. }
  exists (PosOrnKeypoint_diff (base kp1) p1).
  exists (PosOrnKeypoint_diff (base kp2) p2).
  exists (continuous_time_ kp1 - t1)%float.
  split.
  - rewrite E1. apply diff_snoc.
  - rewrite E2, Htime, Ht. apply diff_snoc.
Qed.

Lemma diff_time_entry_ignores_pose_witness :
  let kp2 :=
    {| base := position_keypoint [4]%float; continuous_time_ := 2%float |} in
  exists r1 r2 e,
    diff reach_in_2s [1; 1; 0.25; 0.5]%float = Some (r1 ++ [e])
    /\ diff kp2 [7; 0.5]%float = Some (r2 ++ [e]).
Proof.
  intros kp2.
  apply diff_time_entry_ignores_pose; reflexivity.
Defined.

End SpacetimeKeypointEdges.
